(** * lrncpp: the two demo programs of the C++ notebook

    A shallow embedding of [src/learn.cpp] and [src/app.cpp]: the console
    logger, the [person] stream inserter, and the remove/erase idiom on a
    [std::vector<int>], together with the properties the notebook's
    description states about them.

    Conventions.
    - [int] is modelled by [Z]; the only arithmetic the programs perform on
      an [int] is [i % 2], C++'s truncating remainder, i.e. [Z.rem].
    - A [std::vector<int>] is a [list Z]; iterators into it are positions
      ([nat]), [begin(v)] is [0] and [end(v)] is [length v].  Dereferencing
      or assigning through an iterator outside the storage has no defined
      behaviour in C++; the model returns [None] there.
    - [std::cout] is the component [w_cout] of the process state [world]. *)

From Stdlib Require Import ZArith String Ascii DecimalString DecimalPos DecimalZ Zquot.
From stdpp Require Import base option list strings gmap.

Local Open Scope Z_scope.

(** ** Decimal text of integers, as [operator<<] prints them *)

(** [num_put] with the default flags: decimal digits, no leading zeros, a
    ['-'] sign for negative values and ["0"] for zero. *)
Definition dec (z : Z) : string := NilZero.string_of_int (Z.to_int z).

(** The inverse reading, used to say what a numeral denotes. *)
Definition undec (s : string) : option Z := Z.of_int <$> NilZero.int_of_string s.

Definition nl : ascii := ascii_of_nat 10.

(** ** Output streams and the process state *)

(** What has been inserted into an [std::ostream].  Insertions whose text is
    fixed by the language are kept as [Text]; the insertion of a whole
    vector is kept as [Seq], because its text is produced by the
    pretty-printing header [learn/prettyprint.hpp], which is not part of the
    sources at hand. *)
Inductive chunk :=
  | Text (s : string)
  | Seq (v : list Z).

Definition ostream := list chunk.

(** The text of a stream, given the vector printer of the absent header. *)
Definition render (pp : list Z → string) (o : ostream) : string :=
  foldr (λ c acc, match c with Text s => s +:+ acc | Seq v => pp v +:+ acc end) EmptyString o.

(** The sequences that were printed, in order. *)
Definition printed (o : ostream) : list (list Z) :=
  omap (λ c, match c with Text _ => None | Seq v => Some v end) o.

(** Everything a run can observe or change. *)
Record world := World {
  w_stdin : string;
  w_environ : list (string * string);
  w_cout : ostream
}.

Definition put (c : chunk) (w : world) : world :=
  {| w_stdin := w_stdin w; w_environ := w_environ w; w_cout := w_cout w ++ [c] |}.

(** [out << s], [out << c], [out << i], [out << v], [out << std::endl]. *)
Definition put_str (s : string) : world → world := put (Text s).
Definition put_char (c : ascii) : world → world := put (Text (String c EmptyString)).
Definition put_int (z : Z) : world → world := put (Text (dec z)).
Definition put_uint (n : N) : world → world := put (Text (dec (Z.of_N n))).
Definition put_vector (v : list Z) : world → world := put (Seq v).
Definition endl : world → world := put_char nl.

(** ** The parts of the standard library the programs call *)

Module std.

(** [std::experimental::source_location]: [file_name()] and [line()]. *)
Record source_location := SourceLocation {
  file_name : string;
  line : N
}.

(** [source_location::current()] written as a default argument is
    evaluated where the call is written: it yields the file of the
    translation unit and the line of the call expression. *)
Definition current (file : string) (call_line : N) : source_location :=
  {| file_name := file; line := call_line |}.

(** Reading and writing through an iterator of a vector. *)
Definition deref (v : list Z) (it : nat) : option Z := v !! it.

Definition assign (v : list Z) (it : nat) (x : Z) : option (list Z) :=
  if decide (it < length v)%nat then Some (<[it := x]> v) else None.

(** [std::find_if(first, last, pred)], with [n] the distance still to go:
    [while (first != last && !pred(first[0])) ++first; return first;] *)
Fixpoint find_if_loop (n : nat) (pred : Z → bool) (v : list Z) (first : nat) : option nat :=
  match n with
  | O => Some first
  | S n' =>
      x ← deref v first;
      if pred x then Some first else find_if_loop n' pred v (S first)
  end.

Definition find_if (v : list Z) (first last : nat) (pred : Z → bool) : option nat :=
  if decide (first ≤ last)%nat then find_if_loop (last - first) pred v first else None.

(** The compaction loop of [std::remove_if]:
    [for (; first != last; ++first)
       if (!pred(first[0])) { result[0] = std::move(first[0]); ++result; }
     return result;] *)
Fixpoint remove_loop (n : nat) (pred : Z → bool) (v : list Z) (first result : nat)
  : option (list Z * nat) :=
  match n with
  | O => Some (v, result)
  | S n' =>
      x ← deref v first;
      if pred x then remove_loop n' pred v (S first) result
      else v' ← assign v result x; remove_loop n' pred v' (S first) (S result)
  end.

(** [std::remove_if(first, last, pred)]: the vector as the algorithm
    leaves it, and the returned iterator (the new logical end). *)
Definition remove_if (v : list Z) (first last : nat) (pred : Z → bool)
  : option (list Z * nat) :=
  first' ← find_if v first last pred;
  if decide (first' = last) then Some (v, first')
  else remove_loop (last - S first') pred v (S first') first'.

(** [std::remove(first, last, value)] is [remove_if] with [*it == value]. *)
Definition remove (v : list Z) (first last : nat) (value : Z) : option (list Z * nat) :=
  remove_if v first last (λ x, bool_decide (x = value)).

(** [v.erase(first, last)]: drops the positions in [first, last). *)
Definition erase (v : list Z) (first last : nat) : option (list Z) :=
  if decide (first ≤ last ∧ last ≤ length v)%nat
  then Some (take first v ++ drop last v) else None.

End std.

(** ** The remove/erase idiom *)

(** [v.erase(std::remove(begin(v), end(v), value), end(v))]. *)
Definition remove_erase (v : list Z) (value : Z) : option (list Z) :=
  '(v', new_end) ← std.remove v 0 (length v) value;
  std.erase v' new_end (length v').

(** [v.erase(std::remove_if(begin(v), end(v), pred), end(v))]. *)
Definition remove_if_erase (v : list Z) (pred : Z → bool) : option (list Z) :=
  '(v', new_end) ← std.remove_if v 0 (length v) pred;
  std.erase v' new_end (length v').

(** [const auto is_odd = [](int i) { return i % 2 != 0; };] *)
Definition is_odd (i : Z) : bool := negb (Z.rem i 2 =? 0).

(** ** The record of the demo programs *)

(** Modelled from the spec: the headers [learn/learn.hpp] and [basic/app.h]
    that declare [person] are absent; the record has a text attribute
    [name] and an integer attribute [age] (the notebook's own snippets
    spell it [std::string name; int age;]). *)
Record person := Person {
  name : string;
  age : Z
}.

(** Stream insertions are chained left to right, as in [out << a << b]. *)
Local Notation "w << f" := (f w) (at level 50, left associativity, only parsing).

(** [std::ostream& operator<<(std::ostream& out, const person& p)]. *)
Definition put_person (p : person) (out : world) : world :=
  out << put_str "(person [" << put_str (name p) << put_str "," << put_int (age p)
      << put_str "])".

(** ** Reading words from [std::cin] *)

(** [std::isspace] in the C locale. *)
Definition is_space (c : ascii) : bool :=
  let n := nat_of_ascii c in
  bool_decide (n = 32 ∨ 9 ≤ n ≤ 13)%nat.

(** The words that repeated [cin >> word] extracts up to end of input;
    [cur] is the word being read. *)
Fixpoint words_from (cur : string) (s : string) : list string :=
  match s with
  | EmptyString => if decide (cur = EmptyString) then [] else [cur]
  | String c s' =>
      if is_space c
      then (if decide (cur = EmptyString) then words_from EmptyString s'
            else cur :: words_from EmptyString s')
      else words_from (cur +:+ String c EmptyString) s'
  end.

(** Copying [istream_iterator<string>{cin}] up to the end iterator. *)
Definition read_words (w : world) : list string * world :=
  (words_from EmptyString (w_stdin w),
   {| w_stdin := EmptyString; w_environ := w_environ w; w_cout := w_cout w |}).

(** ** learn.cpp *)

Module Learn.

(** [void log(std::string_view message, const source_location& location)]. *)
Definition log (message : string) (location : std.source_location) (w : world) : world :=
  w << put_str "info:"
    << put_str (std.file_name location) << put_str ":"
    << put_uint (std.line location) << put_str " "
    << put_str message << put_char nl.

Definition designated_initializers (w : world) : world :=
  let w := w << put_str "-- designated initializer for Person" << endl in
  let p := {| name := "bingo"; age := 23 |} in
  w << put_person p << endl.

(** The call of [log] is written on line 30 of the file. *)
Definition source_location (file : string) (w : world) : world :=
  log "Logging Hello world!" (std.current file 30) w.

(** The routine builds a stream over [input] but reads from [cin]. *)
Definition set_remove_dups_demo (w : world) : world :=
  let input : string := "a a a b c foo bar foobar foo bar bar" in
  let '(ws, w) := read_words w in
  let s1 : gset string := foldl (λ s x, {[x]} ∪ s) ∅ ws in
  w.

(** The value of the local set [s1] at the point where
    [set_remove_dups_demo] returns. *)
Definition set_remove_dups_demo_s1 (w : world) : gset string :=
  let '(ws, _) := read_words w in
  foldl (λ s x, {[x]} ∪ s) ∅ ws.

Definition vector_remove_erase_idiom (w : world) : option world :=
  let v := [1; 2; 3; 2; 5; 2; 6; 2; 4; 8] in
  let w := w << put_str "Original      : " << put_vector v << endl in
  '(v, new_end) ← std.remove v 0 (length v) 2;
  let w := w << put_str "After Remove  : " << put_vector v << endl in
  v ← std.erase v new_end (length v);
  let w := w << put_str "After Erase   : " << put_vector v << endl in
  v ← remove_if_erase v is_odd;
  let w := w << put_str "After Odd Del : " << put_vector v << endl in
  Some w.

(** [main] returns the state it leaves and its exit code. *)
Definition main (w : world) : option (world * Z) :=
  w ← vector_remove_erase_idiom w;
  Some (w, 0).

End Learn.

(** ** app.cpp *)

Module App.

Definition log (message : string) (location : std.source_location) (w : world) : world :=
  w << put_str "info:"
    << put_str (std.file_name location) << put_str ":"
    << put_uint (std.line location) << put_str " "
    << put_str message << put_char nl.

(** The call of [log] is written on line 19 of the file. *)
Definition main (file : string) (w : world) : world * Z :=
  let w := w << put_str "Hello, World!" << endl in
  let p := {| name := "bingo"; age := 23 |} in
  let w := w << put_str "P.name = " << put_str (name p) << endl in
  let w := log "Logging Hello world!" (std.current file 19) w in
  (w, 0).

End App.

(** ** What the description says a filter computes *)

(** The input with every element satisfying [removed] deleted and nothing
    else touched. *)
Fixpoint surviving (removed : Z → bool) (v : list Z) : list Z :=
  match v with
  | [] => []
  | x :: t => if removed x then surviving removed t else x :: surviving removed t
  end.

(** The number of newline characters in a text. *)
Definition newlines (s : string) : nat :=
  length (List.filter (λ c, bool_decide (c = nl)) (list_ascii_of_string s)).

Definition fresh_world (input : string) (env : list (string * string)) : world :=
  {| w_stdin := input; w_environ := env; w_cout := [] |}.

Definition nls : string := String nl EmptyString.

(** The state in which a program is started: nothing written yet. *)
Definition run_app (file : string) (input : string) (env : list (string * string)) : world * Z :=
  App.main file (fresh_world input env).

Definition run_learn (input : string) (env : list (string * string)) : option (world * Z) :=
  Learn.main (fresh_world input env).

(** Any two elements of [out] occur in [v] in the same order. *)
Definition order_preserved (out v : list Z) : Prop :=
  ∀ (i j : nat) (x y : Z), (i < j)%nat → out !! i = Some x → out !! j = Some y →
    ∃ i' j' : nat, (i' < j')%nat ∧ v !! i' = Some x ∧ v !! j' = Some y.

(** The sequence the collection demo starts from, and the sequences that
    hold after each of its steps according to the description: built, the
    value 2 removed, the odd values removed. *)
Definition demo_input : list Z := [1; 2; 3; 2; 5; 2; 6; 2; 4; 8].

Definition conceptual_steps : list (list Z) :=
  let v1 := surviving (λ x, bool_decide (x = 2)) demo_input in
  [demo_input; v1; surviving is_odd v1].

(** The shape [info:<nonempty-file-path>:<positive-integer> <message>]. *)
Definition log_pattern (message text : string) : Prop :=
  ∃ (path : string) (n : Z),
    path ≠ EmptyString ∧ 0 < n ∧
    text = "info:" +:+ path +:+ ":" +:+ dec n +:+ " " +:+ message.

(** The line [info:<file>:<line> <message>] for a call site. *)
Definition info_line (message : string) (location : std.source_location) : string :=
  "info:" +:+ std.file_name location +:+ ":" +:+ dec (Z.of_N (std.line location))
          +:+ " " +:+ message.

(** A word as [cin >> word] can deliver it: not empty, no white space. *)
Definition is_word (s : string) : bool :=
  bool_decide (s ≠ EmptyString) && forallb (λ c, negb (is_space c)) (list_ascii_of_string s).

(** A separator between words: not empty, white space only. *)
Definition is_separator (s : string) : bool :=
  bool_decide (s ≠ EmptyString) && forallb is_space (list_ascii_of_string s).

(** A vector printer in the style of the pretty-printing header, to have
    one at hand for examples. *)
Definition bracket_pp (v : list Z) : string :=
  "[" +:+ String.concat ", " (dec <$> v) +:+ "]".

(** * Properties *)

(** ** Text *)

Lemma string_app_cons (ch : ascii) (a b : string) :
  String ch a +:+ b = String ch (a +:+ b).
Proof. reflexivity. Qed.

Lemma string_app_nil_l (a : string) : EmptyString +:+ a = a.
Proof. reflexivity. Qed.

Lemma string_app_assoc (a b c : string) : (a +:+ b) +:+ c = a +:+ (b +:+ c).
Proof.
  induction a as [|ch a IH]; [done |].
  by rewrite !string_app_cons, IH.
Qed.

Lemma string_app_nil_r (a : string) : a +:+ EmptyString = a.
Proof.
  induction a as [|ch a IH]; [done |].
  by rewrite string_app_cons, IH.
Qed.

Lemma render_app pp (o1 o2 : ostream) :
  render pp (o1 ++ o2) = render pp o1 +:+ render pp o2.
Proof.
  unfold render. induction o1 as [|c o1 IH]; simpl; [done |].
  rewrite IH. destruct c; by rewrite string_app_assoc.
Qed.

Lemma render_text pp (s : string) : render pp [Text s] = s.
Proof. simpl. apply string_app_nil_r. Qed.

Lemma printed_app (o1 o2 : ostream) : printed (o1 ++ o2) = printed o1 ++ printed o2.
Proof. apply omap_app. Qed.

Lemma newlines_app (a b : string) : newlines (a +:+ b) = (newlines a + newlines b)%nat.
Proof.
  unfold newlines. induction a as [|ch a IH]; [done |].
  rewrite string_app_cons. simpl.
  destruct (bool_decide (ch = nl)); simpl; by rewrite IH.
Qed.

(** The numeral printed for [z] reads back as [z]. *)
Lemma undec_dec (z : Z) : undec (dec z) = Some z.
Proof.
  unfold undec, dec. rewrite NilZero.isi.
  - simpl. by rewrite DecimalZ.of_to.
  - destruct z; simpl; try discriminate.
    intros [= H]. by apply DecimalPos.Unsigned.to_uint_nonnil in H.
  - destruct z; simpl; try discriminate.
    intros [= H]. by apply DecimalPos.Unsigned.to_uint_nonnil in H.
Qed.

Lemma dec_inj (z1 z2 : Z) : dec z1 = dec z2 → z1 = z2.
Proof.
  intros H. assert (Some z1 = Some z2) as [= ->]; [|done].
  by rewrite <- !undec_dec, H.
Qed.

(** ** The predicate of the second filter *)

Lemma is_odd_parity (i : Z) : is_odd i = Z.odd i.
Proof.
  unfold is_odd. rewrite Zquot.Zrem_odd.
  destruct (Z.odd i) eqn:Hodd; [| done].
  destruct i; [discriminate | done | done].
Qed.

(** ** The compaction performed by [std::remove_if] *)

Section compaction.
Variable pred : Z → bool.

Lemma surviving_app (a b : list Z) :
  surviving pred (a ++ b) = surviving pred a ++ surviving pred b.
Proof.
  induction a as [|x a IH]; simpl; [done |].
  destruct (pred x); simpl; by rewrite IH.
Qed.

(** The search stops at the first element to remove, or at the end. *)
Lemma find_if_loop_split (todo : list Z) : ∀ pre : list Z,
  ∃ a b, todo = a ++ b ∧ surviving pred a = a ∧
    (b = [] ∨ ∃ x b', b = x :: b' ∧ pred x = true) ∧
    std.find_if_loop (length todo) pred (pre ++ todo) (length pre)
    = Some (length pre + length a)%nat.
Proof.
  induction todo as [|x t IH]; intros pre.
  - exists [], []. simpl. repeat split; auto; f_equal; lia.
  - simpl. unfold std.deref. rewrite list_lookup_middle by done. simpl.
    destruct (pred x) eqn:Hx.
    + exists [], (x :: t). repeat split; eauto; f_equal; lia.
    + destruct (IH (pre ++ [x])) as (a & b & -> & Ha & Hb & Hf).
      exists (x :: a), b. simpl. rewrite Hx, Ha. repeat split; auto.
      rewrite <- app_assoc, (length_app pre [x]) in Hf. simpl in Hf.
      rewrite Nat.add_1_r in Hf. rewrite Hf. f_equal; lia.
Qed.

(** Loop invariant of the compaction: the vector is [kept ++ gap ++ todo]
    with [result] at the end of [kept] and [first] at the start of
    [todo]. *)
Lemma remove_loop_spec (todo : list Z) : ∀ kept gap : list Z,
  std.remove_loop (length todo) pred (kept ++ gap ++ todo)
    (length kept + length gap) (length kept)
  = Some (kept ++ surviving pred todo
               ++ drop (length (surviving pred todo)) (gap ++ todo),
          (length kept + length (surviving pred todo))%nat).
Proof.
  induction todo as [|x t IH]; intros kept gap.
  - simpl. rewrite app_nil_r, Nat.add_0_r. done.
  - simpl. unfold std.deref.
    rewrite app_assoc, list_lookup_middle by (by rewrite length_app).
    simpl. destruct (pred x) eqn:Hx.
    + specialize (IH kept (gap ++ [x])).
      rewrite length_app in IH. simpl in IH.
      rewrite <- !app_assoc in IH. simpl in IH. rewrite <- app_assoc.
      replace (S (length kept + length gap)) with (length kept + (length gap + 1))%nat by lia.
      done.
    + unfold std.assign. rewrite decide_True by (rewrite !length_app; simpl; lia).
      simpl. destruct gap as [|g gs].
      * simpl. rewrite app_nil_r.
        replace (<[length kept:=x]> (kept ++ x :: t)) with ((kept ++ [x]) ++ [] ++ t).
        2:{ rewrite insert_app_r_alt, Nat.sub_diag by lia. simpl. by rewrite <- app_assoc. }
        specialize (IH (kept ++ [x]) []).
        rewrite length_app in IH. simpl in IH.
        replace (S (length kept + 0)) with (length kept + 1 + 0)%nat by lia.
        replace (S (length kept)) with (length kept + 1)%nat by lia.
        change ([] ++ t) with t.
        rewrite IH. rewrite <- !app_assoc. simpl. f_equal. f_equal. lia.
      * replace (<[length kept:=x]> ((kept ++ g :: gs) ++ x :: t))
          with ((kept ++ [x]) ++ (gs ++ [x]) ++ t).
        2:{ rewrite <- !app_assoc. rewrite (insert_app_r_alt kept), Nat.sub_diag by lia.
            simpl. done. }
        specialize (IH (kept ++ [x]) (gs ++ [x])).
        rewrite !length_app in IH. simpl in IH.
        replace (S (length kept + length (g :: gs)))
          with (length kept + 1 + (length gs + 1))%nat by (simpl; lia).
        replace (S (length kept)) with (length kept + 1)%nat by lia.
        rewrite IH. rewrite <- !app_assoc. simpl. f_equal. f_equal. lia.
Qed.

(** What [std::remove_if] over the whole vector leaves behind: the
    survivors in front, the old contents behind them, and the iterator
    between the two. *)
Lemma remove_if_spec (v : list Z) :
  std.remove_if v 0 (length v) pred
  = Some (surviving pred v ++ drop (length (surviving pred v)) v,
          length (surviving pred v)).
Proof.
  unfold std.remove_if, std.find_if.
  rewrite decide_True by lia. rewrite Nat.sub_0_r.
  destruct (find_if_loop_split v []) as (a & b & -> & Ha & Hb & Hf).
  simpl in Hf. rewrite Hf. simpl. rewrite surviving_app, Ha.
  destruct Hb as [-> | (x & b' & -> & Hx)].
  - rewrite !app_nil_r. rewrite decide_True by done.
    by rewrite drop_all, app_nil_r.
  - rewrite decide_False by (rewrite length_app; simpl; lia).
    simpl. rewrite Hx.
    pose proof (remove_loop_spec b' a [x]) as H. simpl in H.
    replace (length (a ++ x :: b') - S (length a))%nat with (length b')
      by (rewrite length_app; simpl; lia).
    replace (S (length a)) with (length a + 1)%nat by lia.
    rewrite H. f_equal. f_equal; [| by rewrite length_app].
    rewrite <- app_assoc. f_equal. f_equal.
    rewrite length_app, drop_app_ge by lia.
    replace (length a + length (surviving pred b') - length a)%nat
      with (length (surviving pred b')) by lia.
    done.
Qed.

Lemma surviving_length (v : list Z) : (length (surviving pred v) ≤ length v)%nat.
Proof.
  induction v as [|x v IH]; simpl; [done |].
  destruct (pred x); simpl; lia.
Qed.

(** The compaction does not resize the vector, so [end(v)] is the same
    iterator whether it is evaluated before or after the call. *)
Lemma remove_if_length (v v' : list Z) (new_end : nat) :
  std.remove_if v 0 (length v) pred = Some (v', new_end) →
  length v' = length v ∧ (new_end ≤ length v)%nat.
Proof.
  rewrite remove_if_spec. intros [= <- <-].
  pose proof (surviving_length v).
  rewrite length_app, length_drop. lia.
Qed.

Lemma remove_if_erase_spec (v : list Z) :
  remove_if_erase v pred = Some (surviving pred v).
Proof.
  unfold remove_if_erase. rewrite remove_if_spec. simpl. unfold std.erase.
  rewrite decide_True by (rewrite length_app; lia).
  by rewrite take_app_length, drop_all, app_nil_r.
Qed.

Lemma surviving_sublist (v : list Z) : surviving pred v `sublist_of` v.
Proof.
  induction v as [|x v IH]; simpl; [constructor |].
  destruct (pred x); by constructor.
Qed.

Lemma surviving_keeps (v : list Z) :
  Forall (λ x, pred x = false) v → surviving pred v = v.
Proof.
  induction 1 as [|x v Hx _ IH]; simpl; [done |]. by rewrite Hx, IH.
Qed.

Lemma elem_of_surviving (v : list Z) (x : Z) :
  x ∈ surviving pred v ↔ x ∈ v ∧ pred x = false.
Proof.
  induction v as [|y v IH]; simpl.
  - split; [by intros ?%elem_of_nil | by intros [?%elem_of_nil _]].
  - destruct (pred y) eqn:Hy; rewrite ?elem_of_cons, IH, ?elem_of_cons.
    + split; [tauto |]. intros [[-> | ?] ?]; [congruence | done].
    + split; [intros [-> | []]; auto |]. intros [[-> | ?] ?]; auto.
Qed.

End compaction.

Lemma remove_erase_spec (v : list Z) (value : Z) :
  remove_erase v value = Some (surviving (λ x, bool_decide (x = value)) v).
Proof. apply (remove_if_erase_spec (λ x, bool_decide (x = value))). Qed.


(** ** Stream insertions only append *)

Lemma put_cout (c : chunk) (w : world) : w_cout (put c w) = w_cout w ++ [c].
Proof. reflexivity. Qed.

Lemma put_stdin (c : chunk) (w : world) : w_stdin (put c w) = w_stdin w.
Proof. reflexivity. Qed.

Lemma put_environ (c : chunk) (w : world) : w_environ (put c w) = w_environ w.
Proof. reflexivity. Qed.

Lemma put_person_cout (p : person) (w : world) :
  w_cout (put_person p w)
  = w_cout w ++ [Text "(person ["; Text (name p); Text ","; Text (dec (age p)); Text "])"].
Proof.
  unfold put_person, put_str, put_int. rewrite !put_cout, <- !app_assoc. done.
Qed.

Lemma app_log_cout (message : string) (location : std.source_location) (w : world) :
  w_cout (App.log message location w)
  = w_cout w ++ [Text "info:"; Text (std.file_name location); Text ":";
                 Text (dec (Z.of_N (std.line location))); Text " ";
                 Text message; Text nls].
Proof.
  unfold App.log, put_str, put_uint, put_char. rewrite !put_cout, <- !app_assoc. done.
Qed.

Lemma learn_log_eq (message : string) (location : std.source_location) (w : world) :
  Learn.log message location w = App.log message location w.
Proof. reflexivity. Qed.

Lemma app_main_cout (file : string) (w : world) :
  w_cout (App.main file w).1
  = w_cout w ++ [Text "Hello, World!"; Text nls; Text "P.name = "; Text "bingo"; Text nls;
                 Text "info:"; Text file; Text ":"; Text "19"; Text " ";
                 Text "Logging Hello world!"; Text nls].
Proof.
  unfold App.main. cbv zeta. unfold fst. rewrite app_log_cout.
  unfold endl, put_str, put_char. rewrite !put_cout, <- !app_assoc. done.
Qed.

(** The collection demo never fails, and this is what it writes. *)
Lemma vector_remove_erase_idiom_cout (w : world) :
  ∃ w', Learn.vector_remove_erase_idiom w = Some w' ∧
    w_stdin w' = w_stdin w ∧ w_environ w' = w_environ w ∧
    w_cout w' = w_cout w ++
      [Text "Original      : "; Seq [1; 2; 3; 2; 5; 2; 6; 2; 4; 8]; Text nls;
       Text "After Remove  : "; Seq [1; 3; 5; 6; 4; 8; 6; 2; 4; 8]; Text nls;
       Text "After Erase   : "; Seq [1; 3; 5; 6; 4; 8]; Text nls;
       Text "After Odd Del : "; Seq [6; 4; 8]; Text nls].
Proof.
  eexists. split; [reflexivity |].
  unfold endl, put_vector, put_str, put_char.
  rewrite !put_cout, !put_stdin, !put_environ, <- !app_assoc. done.
Qed.

(** The one routine that reads input consumes it and writes nothing; the
    entry point of learn.cpp does not call it. *)
Lemma set_remove_dups_demo_effect (w : world) :
  w_stdin (Learn.set_remove_dups_demo w) = EmptyString ∧
  w_environ (Learn.set_remove_dups_demo w) = w_environ w ∧
  w_cout (Learn.set_remove_dups_demo w) = w_cout w.
Proof. done. Qed.

Lemma surviving_order (pred : Z → bool) (v : list Z) :
  order_preserved (surviving pred v) v.
Proof.
  induction v as [|a v IH]; intros i j x y Hij Hi Hj; simpl in *.
  - by rewrite lookup_nil in Hi.
  - destruct (pred a) eqn:Ha.
    + destruct (IH i j x y Hij Hi Hj) as (i' & j' & ? & ? & ?).
      exists (S i'), (S j'). split_and!; [lia | done | done].
    + destruct j as [|j]; [lia |]. simpl in Hj.
      destruct i as [|i]; simpl in Hi.
      * injection Hi as ->.
        assert (y ∈ v) as [j' Hj']%list_elem_of_lookup.
        { eapply elem_of_surviving, list_elem_of_lookup_2, Hj. }
        exists 0%nat, (S j'). split_and!; [lia | done | done].
      * destruct (IH i j x y ltac:(lia) Hi Hj) as (i' & j' & ? & ? & ?).
        exists (S i'), (S j'). split_and!; [lia | done | done].
Qed.

Lemma dec_newlines (z : Z) : newlines (dec z) = 0%nat.
Proof.
  assert (Hu : ∀ d, newlines (NilEmpty.string_of_uint d) = 0%nat).
  { induction d; simpl; try done; unfold newlines in *; simpl; done. }
  assert (Hz : ∀ d, newlines (NilZero.string_of_uint d) = 0%nat).
  { intros d. destruct d; try apply Hu. done. }
  unfold dec. destruct (Z.to_int z); simpl; [apply Hz |].
  unfold newlines in *. simpl. apply Hz.
Qed.

(** * The statements of the description *)

(** C1. Removing the value 2 from [1,2,3,2,5,2,6,2,4,8] with the
    remove/erase idiom yields exactly [1,3,5,6,4,8]. *)
Theorem remove_value_example :
  remove_erase [1; 2; 3; 2; 5; 2; 6; 2; 4; 8] 2 = Some [1; 3; 5; 6; 4; 8].
Proof. reflexivity. Qed.

(** C2. Removing the odd values ([i % 2 != 0]) from [1,3,5,6,4,8] yields
    exactly [6,4,8]. *)
Theorem remove_odd_example :
  remove_if_erase [1; 3; 5; 6; 4; 8] is_odd = Some [6; 4; 8].
Proof. reflexivity. Qed.

(** C3. Order preservation: for every sequence, every target value and
    every predicate, the filter returns the input with the removed elements
    deleted and nothing reordered; any two surviving elements stand in the
    order they had in the input. *)
Theorem filter_order_preservation (v : list Z) (value : Z) (pred : Z → bool) :
  remove_erase v value = Some (surviving (λ x, bool_decide (x = value)) v) ∧
  remove_if_erase v pred = Some (surviving pred v) ∧
  order_preserved (surviving (λ x, bool_decide (x = value)) v) v ∧
  order_preserved (surviving pred v) v.
Proof.
  split_and!.
  - apply remove_erase_spec.
  - apply remove_if_erase_spec.
  - apply surviving_order.
  - apply surviving_order.
Qed.

(** C4. Removing a value that does not occur in the sequence returns the
    sequence unchanged. *)
Theorem remove_absent_value (v : list Z) (value : Z) :
  value ∉ v → remove_erase v value = Some v.
Proof.
  intros Hnot. rewrite remove_erase_spec. f_equal.
  apply surviving_keeps, Forall_forall. intros x Hx.
  apply bool_decide_eq_false. by intros ->.
Qed.

Lemma remove_absent_value_witness :
  (7 ∉ [1; 3; 5; 6; 4; 8]) ∧ remove_erase [1; 3; 5; 6; 4; 8] 7 = Some [1; 3; 5; 6; 4; 8].
Proof.
  assert (H : 7 ∉ [1; 3; 5; 6; 4; 8]) by (apply (bool_decide_unpack _); vm_compute; exact I).
  split; [exact H | exact (remove_absent_value [1; 3; 5; 6; 4; 8] 7 H)].
Defined.

(** C5. The two filters have no failure mode: they return a sequence for
    every input, the empty sequence for the empty one, and the collection
    demo and its entry point run to completion from every state. *)
Theorem filters_total (v : list Z) (value : Z) (pred : Z → bool) (w : world) :
  is_Some (remove_erase v value) ∧ is_Some (remove_if_erase v pred) ∧
  remove_erase [] value = Some [] ∧ remove_if_erase [] pred = Some [] ∧
  is_Some (Learn.vector_remove_erase_idiom w) ∧ is_Some (Learn.main w).
Proof.
  destruct (vector_remove_erase_idiom_cout w) as (w' & Hw' & _).
  split_and!; try done.
  - rewrite remove_erase_spec. by eexists.
  - rewrite remove_if_erase_spec. by eexists.
Qed.

(** C6. The person formatter appends exactly [(person [<name>,<age>])] to
    the stream, with [<age>] the decimal numeral of the age, and touches
    nothing else; for name bingo and age 23 the text is
    [(person [bingo,23])]. *)
Theorem person_formatter (pp : list Z → string) (p : person) (w : world) :
  render pp (w_cout (put_person p w))
    = render pp (w_cout w) +:+ "(person [" +:+ name p +:+ "," +:+ dec (age p) +:+ "])" ∧
  undec (dec (age p)) = Some (age p) ∧
  w_stdin (put_person p w) = w_stdin w ∧
  w_environ (put_person p w) = w_environ w ∧
  render pp (w_cout (put_person {| name := "bingo"; age := 23 |} (fresh_world "" [])))
    = "(person [bingo,23])" ∧
  render pp (w_cout (Learn.designated_initializers w))
    = render pp (w_cout w) +:+ "-- designated initializer for Person" +:+ nls
        +:+ "(person [bingo,23])" +:+ nls.
Proof.
  split_and!; try done.
  - rewrite put_person_cout, render_app. reflexivity.
  - apply undec_dec.
  - unfold Learn.designated_initializers, endl, put_str, put_char. cbv zeta.
    rewrite !put_cout, put_person_cout, !put_cout, <- !app_assoc, render_app.
    reflexivity.
Qed.

(** C7, as amended. For every message and location the logger appends
    exactly the text [info:<file>:<line> <message>] and one newline, and
    touches nothing else. The message is written as it is: the text is a
    single line exactly when neither the file name nor the message holds a
    newline, and holds one more newline than the two together in general.
    The location is captured where the call is written: its file name is
    that of the translation unit and its line that of the call, so that
    the call in learn.cpp writes [info:<file>:30 Logging Hello world!] and
    the call in app.cpp writes [info:<file>:19 Logging Hello world!], both
    of the shape
    [info:<nonempty-file-path>:<positive-integer> Logging Hello world!]
    for a nonempty file name. *)
Theorem log_line_format (pp : list Z → string) (message : string)
    (location : std.source_location) (w : world) (file : string) (call_line : N) :
  render pp (w_cout (App.log message location w))
    = render pp (w_cout w) +:+ info_line message location +:+ nls ∧
  Learn.log message location w = App.log message location w ∧
  w_stdin (App.log message location w) = w_stdin w ∧
  w_environ (App.log message location w) = w_environ w ∧
  newlines (info_line message location +:+ nls)
    = S (newlines (std.file_name location) + newlines message) ∧
  (newlines (info_line message location +:+ nls) = 1%nat
     ↔ newlines (std.file_name location) = 0%nat ∧ newlines message = 0%nat) ∧
  undec (dec (Z.of_N (std.line location))) = Some (Z.of_N (std.line location)) ∧
  (std.file_name location ≠ EmptyString → std.line location ≠ 0%N →
     log_pattern message (info_line message location)) ∧
  std.file_name (std.current file call_line) = file ∧
  std.line (std.current file call_line) = call_line ∧
  render pp (w_cout (App.log message (std.current file call_line) w))
    = render pp (w_cout w) +:+ "info:" +:+ file +:+ ":" +:+ dec (Z.of_N call_line)
        +:+ " " +:+ message +:+ nls ∧
  render pp (w_cout (Learn.source_location file w))
    = render pp (w_cout w) +:+ "info:" +:+ file +:+ ":30 Logging Hello world!" +:+ nls ∧
  render pp (w_cout (App.main file w).1)
    = render pp (w_cout w) +:+ "Hello, World!" +:+ nls +:+ "P.name = bingo" +:+ nls
        +:+ "info:" +:+ file +:+ ":19 Logging Hello world!" +:+ nls ∧
  (file ≠ EmptyString →
     log_pattern "Logging Hello world!" ("info:" +:+ file +:+ ":30 Logging Hello world!") ∧
     log_pattern "Logging Hello world!" ("info:" +:+ file +:+ ":19 Logging Hello world!")).
Proof.
  assert (Hgen : ∀ loc msg w0, render pp (w_cout (App.log msg loc w0))
            = render pp (w_cout w0) +:+ info_line msg loc +:+ nls).
  { intros loc msg w0. rewrite app_log_cout, render_app. f_equal.
    unfold info_line, render. simpl. by rewrite !string_app_assoc. }
  assert (Hpat : ∀ loc msg, std.file_name loc ≠ EmptyString → std.line loc ≠ 0%N →
            log_pattern msg (info_line msg loc)).
  { intros loc msg Hf Hl. exists (std.file_name loc), (Z.of_N (std.line loc)).
    split_and!; [done | lia | done]. }
  assert (Hcount : newlines (info_line message location +:+ nls)
            = S (newlines (std.file_name location) + newlines message)).
  { unfold info_line. rewrite !newlines_app, dec_newlines.
    change (newlines "info:") with 0%nat. change (newlines ":") with 0%nat.
    change (newlines " ") with 0%nat. change (newlines nls) with 1%nat. lia. }
  split_and!; try done.
  - rewrite Hcount. lia.
  - apply undec_dec.
  - by apply Hpat.
  - rewrite Hgen. unfold info_line. simpl. by rewrite !string_app_assoc.
  - unfold Learn.source_location. rewrite learn_log_eq, Hgen.
    unfold info_line. simpl. by rewrite !string_app_assoc.
  - rewrite app_main_cout, render_app. reflexivity.
  - intros Hfile. split.
    + exists file, 30. split_and!; [done | lia | done].
    + exists file, 19. split_and!; [done | lia | done].
Qed.

Lemma log_line_format_witness :
  "src/app.cpp" ≠ EmptyString ∧
  log_pattern "Logging Hello world!" "info:src/app.cpp:30 Logging Hello world!" ∧
  log_pattern "Logging Hello world!" "info:src/app.cpp:19 Logging Hello world!".
Proof.
  assert (H : "src/app.cpp" ≠ EmptyString) by discriminate.
  split; [exact H |].
  destruct (log_line_format bracket_pp "Logging Hello world!"
              (std.current "src/app.cpp" 19) (fresh_world "" []) "src/app.cpp" 19)
    as (_ & _ & _ & _ & _ & _ & _ & _ & _ & _ & _ & _ & _ & Hsites).
  exact (Hsites H).
Defined.

(** C7, as stated, fails: a message is written as it is, so a message with
    a newline in it makes the logger write two lines, not one. *)
Lemma log_message_with_newline :
  ¬ (∀ message : string,
       newlines (render bracket_pp
         (w_cout (App.log message (std.current "src/app.cpp" 19) (fresh_world "" []))))
       = 1%nat).
Proof.
  intros Hone. specialize (Hone ("two" +:+ nls +:+ "lines")).
  vm_compute in Hone. discriminate Hone.
Qed.

(** C8, as amended. The collection demo prints four sequences, each after
    its label and followed by a newline: the sequence it built; the vector
    as [std::remove] leaves it, which still has all ten positions, the
    first six of them holding the filtered sequence; the filtered sequence
    [1,3,5,6,4,8] once [erase] has cut the vector; and [6,4,8] once the odd
    values are removed. *)
Theorem demo_step_trace (w : world) :
  ∃ (w' : world) (mid : list Z),
    Learn.vector_remove_erase_idiom w = Some w' ∧
    w_cout w' = w_cout w ++
      [Text "Original      : "; Seq demo_input; Text nls;
       Text "After Remove  : "; Seq mid; Text nls;
       Text "After Erase   : "; Seq (surviving (λ x, bool_decide (x = 2)) demo_input);
       Text nls;
       Text "After Odd Del : ";
       Seq (surviving is_odd (surviving (λ x, bool_decide (x = 2)) demo_input));
       Text nls] ∧
    length mid = length demo_input ∧
    take 6 mid = surviving (λ x, bool_decide (x = 2)) demo_input ∧
    surviving (λ x, bool_decide (x = 2)) demo_input = [1; 3; 5; 6; 4; 8] ∧
    surviving is_odd (surviving (λ x, bool_decide (x = 2)) demo_input) = [6; 4; 8].
Proof.
  destruct (vector_remove_erase_idiom_cout w) as (w' & Hrun & _ & _ & Hout).
  exists w', [1; 3; 5; 6; 4; 8; 6; 2; 4; 8].
  split_and!; try done.
Qed.

(** C8, as stated, fails: the sequence printed after [std::remove] is none
    of the sequences that hold after a step of the demo. *)
Lemma demo_prints_unerased_vector :
  ¬ (∀ w' : world,
       Learn.vector_remove_erase_idiom (fresh_world "" []) = Some w' →
       Forall (λ s, s ∈ conceptual_steps) (printed (w_cout w'))).
Proof.
  intros Hall.
  destruct (vector_remove_erase_idiom_cout (fresh_world "" [])) as (w' & Hrun & _ & _ & Hout).
  specialize (Hall w' Hrun). rewrite Hout in Hall. simpl in Hall.
  apply Forall_cons in Hall as [_ Hall].
  apply Forall_cons in Hall as [Hmid _].
  revert Hmid. apply (bool_decide_unpack _). vm_compute. exact I.
Qed.

(** C9. Neither entry point depends on what is on standard input or in the
    environment: two runs write the same text and return 0, and the log
    line of the greeter carries the file name of its translation unit and
    the line number 19 of the call. *)
Theorem entry_points_deterministic (pp : list Z → string) (file : string)
    (input1 input2 : string) (env1 env2 : list (string * string)) :
  w_cout (run_app file input1 env1).1 = w_cout (run_app file input2 env2).1 ∧
  (run_app file input1 env1).2 = 0 ∧ (run_app file input2 env2).2 = 0 ∧
  render pp (w_cout (run_app file input1 env1).1)
    = "Hello, World!" +:+ nls +:+ "P.name = bingo" +:+ nls
        +:+ "info:" +:+ file +:+ ":19 Logging Hello world!" +:+ nls ∧
  ∃ w1 w2 : world,
    run_learn input1 env1 = Some (w1, 0) ∧ run_learn input2 env2 = Some (w2, 0) ∧
    w_cout w1 = w_cout w2 ∧
    render pp (w_cout w1)
      = "Original      : " +:+ pp [1; 2; 3; 2; 5; 2; 6; 2; 4; 8] +:+ nls
        +:+ "After Remove  : " +:+ pp [1; 3; 5; 6; 4; 8; 6; 2; 4; 8] +:+ nls
        +:+ "After Erase   : " +:+ pp [1; 3; 5; 6; 4; 8] +:+ nls
        +:+ "After Odd Del : " +:+ pp [6; 4; 8] +:+ nls.
Proof.
  unfold run_app, run_learn. split_and!.
  - by rewrite !app_main_cout.
  - done.
  - done.
  - rewrite app_main_cout. reflexivity.
  - destruct (vector_remove_erase_idiom_cout (fresh_world input1 env1))
      as (w1 & Hrun1 & _ & _ & Hout1).
    destruct (vector_remove_erase_idiom_cout (fresh_world input2 env2))
      as (w2 & Hrun2 & _ & _ & Hout2).
    exists w1, w2. unfold Learn.main. rewrite Hrun1, Hrun2. split_and!; try done.
    + by rewrite Hout1, Hout2.
    + rewrite Hout1. reflexivity.
Qed.

(** C10. The output of either filter is a subsequence of its input: it
    arises by deleting elements only, every element of it is an element of
    the input that the filter does not remove, and it is no longer than
    the input. *)
Theorem filter_output_subsequence (v : list Z) (value : Z) (pred : Z → bool) :
  ∃ out1 out2 : list Z,
    remove_erase v value = Some out1 ∧ remove_if_erase v pred = Some out2 ∧
    out1 `sublist_of` v ∧ out2 `sublist_of` v ∧
    (length out1 ≤ length v)%nat ∧ (length out2 ≤ length v)%nat ∧
    (∀ x, x ∈ out1 ↔ x ∈ v ∧ x ≠ value) ∧
    (∀ x, x ∈ out2 ↔ x ∈ v ∧ pred x = false).
Proof.
  exists (surviving (λ x, bool_decide (x = value)) v), (surviving pred v).
  split_and!.
  - apply remove_erase_spec.
  - apply remove_if_erase_spec.
  - apply surviving_sublist.
  - apply surviving_sublist.
  - apply sublist_length, surviving_sublist.
  - apply sublist_length, surviving_sublist.
  - intros x. rewrite elem_of_surviving. by rewrite bool_decide_eq_false.
  - intros x. apply elem_of_surviving.
Qed.

(** * Further properties of the code *)

(** ** The filters *)

Lemma surviving_idem (pred : Z → bool) (v : list Z) :
  surviving pred (surviving pred v) = surviving pred v.
Proof.
  induction v as [|x v IH]; simpl; [done |].
  destruct (pred x) eqn:Hx; simpl; [done |]. by rewrite Hx, IH.
Qed.

Lemma surviving_fuse (p q : Z → bool) (v : list Z) :
  surviving q (surviving p v) = surviving (λ x, p x || q x) v.
Proof.
  induction v as [|x v IH]; simpl; [done |].
  destruct (p x) eqn:Hp; simpl; [done |].
  destruct (q x); simpl; by rewrite IH.
Qed.

Lemma surviving_ext (p q : Z → bool) (v : list Z) :
  (∀ x, p x = q x) → surviving p v = surviving q v.
Proof.
  intros Hpq. induction v as [|x v IH]; simpl; [done |]. by rewrite Hpq, IH.
Qed.

Lemma surviving_none (pred : Z → bool) (v : list Z) :
  Forall (λ x, pred x = true) v → surviving pred v = [].
Proof. induction 1 as [|x v Hx _ IH]; simpl; [done |]. by rewrite Hx. Qed.

(** X1. [std::remove_if] over a whole vector works in place: the vector
    keeps its size, the returned iterator stands after as many positions as
    there are elements to keep, the positions before it hold those elements
    in order, and the positions from it on hold what they held before. *)
Theorem remove_if_in_place (v : list Z) (pred : Z → bool) :
  ∃ (v' : list Z) (new_end : nat),
    std.remove_if v 0 (length v) pred = Some (v', new_end) ∧
    length v' = length v ∧
    new_end = length (surviving pred v) ∧
    take new_end v' = surviving pred v ∧
    drop new_end v' = drop new_end v.
Proof.
  eexists _, _. split; [apply remove_if_spec |].
  pose proof (surviving_length pred v).
  split_and!.
  - rewrite length_app, length_drop. lia.
  - done.
  - apply take_app_length.
  - apply drop_app_length.
Qed.

(** X2. After the remove/erase idiom the value no longer occurs, and the
    vector is shorter by exactly the number of its occurrences. *)
Theorem remove_erase_count (v : list Z) (value : Z) :
  ∃ out : list Z,
    remove_erase v value = Some out ∧
    (value ∉ out) ∧
    (length out + count_occ Z.eq_dec v value = length v)%nat.
Proof.
  eexists. split; [apply remove_erase_spec |]. split.
  - rewrite elem_of_surviving. intros [_ H]. by apply bool_decide_eq_false in H.
  - induction v as [|x v IH]; simpl; [done |].
    destruct (Z.eq_dec x value) as [-> | Hne].
    + rewrite bool_decide_eq_true_2 by done. lia.
    + rewrite bool_decide_eq_false_2 by done. simpl. lia.
Qed.

(** X3. The remove/erase idiom returns the vector it was given exactly
    when the value does not occur in it. *)
Theorem remove_erase_unchanged_iff (v : list Z) (value : Z) :
  remove_erase v value = Some v ↔ value ∉ v.
Proof.
  rewrite remove_erase_spec. split.
  - intros [= Heq] Hin.
    assert (value ∈ surviving (λ x, bool_decide (x = value)) v) as Hs by by rewrite Heq.
    apply elem_of_surviving in Hs as [_ Hs]. by apply bool_decide_eq_false in Hs.
  - intros Hnot. f_equal. apply surviving_keeps, Forall_forall. intros x Hx.
    apply bool_decide_eq_false. by intros ->.
Qed.

(** X4. Filtering is idempotent: a second pass with the same predicate,
    or the same value, changes nothing. *)
Theorem filter_idempotent (v : list Z) (value : Z) (pred : Z → bool) :
  (remove_if_erase v pred ≫= λ out, remove_if_erase out pred) = remove_if_erase v pred ∧
  (remove_erase v value ≫= λ out, remove_erase out value) = remove_erase v value.
Proof.
  split.
  - rewrite remove_if_erase_spec. simpl. by rewrite remove_if_erase_spec, surviving_idem.
  - rewrite remove_erase_spec. simpl. by rewrite remove_erase_spec, surviving_idem.
Qed.

(** X5. The two passes of the demo can be run in either order, or as one
    pass that removes an element when it is the value or satisfies the
    predicate: all three give the same vector. *)
Theorem filter_passes_commute (v : list Z) (value : Z) (pred : Z → bool) :
  (remove_erase v value ≫= λ out, remove_if_erase out pred)
    = remove_if_erase v (λ x, bool_decide (x = value) || pred x) ∧
  (remove_if_erase v pred ≫= λ out, remove_erase out value)
    = remove_if_erase v (λ x, bool_decide (x = value) || pred x).
Proof.
  split.
  - rewrite remove_erase_spec. simpl.
    by rewrite !remove_if_erase_spec, surviving_fuse.
  - rewrite remove_if_erase_spec. simpl.
    rewrite remove_erase_spec, remove_if_erase_spec, surviving_fuse. f_equal.
    apply surviving_ext. intros x. apply orb_comm.
Qed.

(** X6. The lambda [i % 2 != 0] is true exactly of the odd integers, the
    negative ones included (where the remainder is [-1]), so the second
    pass of the demo keeps exactly the even elements, in order. *)
Theorem odd_pass_keeps_evens (v : list Z) (i : Z) :
  is_odd i = Z.odd i ∧
  remove_if_erase v is_odd = Some (List.filter Z.even v).
Proof.
  split; [apply is_odd_parity |].
  rewrite remove_if_erase_spec. f_equal.
  induction v as [|x v IH]; simpl; [done |].
  rewrite is_odd_parity, <- Z.negb_even. destruct (Z.even x); simpl; by rewrite IH.
Qed.

(** X7. Filtering a concatenation is filtering the two parts and
    concatenating the results. *)
Theorem filter_app (a b : list Z) (pred : Z → bool) :
  remove_if_erase (a ++ b) pred
  = (a' ← remove_if_erase a pred; b' ← remove_if_erase b pred; Some (a' ++ b')).
Proof. rewrite !remove_if_erase_spec. simpl. by rewrite surviving_app. Qed.

(** X8. The two extremes of [std::remove_if]. When every element is to be
    removed it returns [begin(v)] without writing to the vector, and the
    erase that follows empties it; when none is, it returns [end(v)]
    without writing, and the erase that follows erases nothing. *)
Theorem remove_if_extremes (v : list Z) (pred : Z → bool) :
  (Forall (λ x, pred x = true) v →
     std.remove_if v 0 (length v) pred = Some (v, 0%nat) ∧
     remove_if_erase v pred = Some []) ∧
  (Forall (λ x, pred x = false) v →
     std.remove_if v 0 (length v) pred = Some (v, length v) ∧
     remove_if_erase v pred = Some v).
Proof.
  split; intros Hall.
  - rewrite remove_if_spec, remove_if_erase_spec, surviving_none by done. done.
  - rewrite remove_if_spec, remove_if_erase_spec, surviving_keeps by done.
    by rewrite drop_all, app_nil_r.
Qed.

Lemma remove_if_extremes_witness :
  (std.remove_if [1; 3; 5] 0 3 is_odd = Some ([1; 3; 5], 0%nat) ∧
   remove_if_erase [1; 3; 5] is_odd = Some []) ∧
  (std.remove_if [6; 4; 8] 0 3 is_odd = Some ([6; 4; 8], 3%nat) ∧
   remove_if_erase [6; 4; 8] is_odd = Some [6; 4; 8]).
Proof.
  split.
  - apply (proj1 (remove_if_extremes [1; 3; 5] is_odd)).
    apply (bool_decide_unpack _). vm_compute. exact I.
  - apply (proj2 (remove_if_extremes [6; 4; 8] is_odd)).
    apply (bool_decide_unpack _). vm_compute. exact I.
Defined.

(** ** Reading words *)

Lemma list_ascii_of_string_app (a b : string) :
  list_ascii_of_string (a +:+ b) = list_ascii_of_string a ++ list_ascii_of_string b.
Proof.
  induction a as [|c a IH]; [done |].
  rewrite string_app_cons. simpl. by rewrite IH.
Qed.

Lemma string_app_eq_nil (a b : string) : a +:+ b = EmptyString → a = EmptyString.
Proof. destruct a; [done | by rewrite string_app_cons]. Qed.

(** Characters that are not white space extend the word being read. *)
Lemma words_from_word (wd : string) : ∀ cur rest : string,
  forallb (λ c, negb (is_space c)) (list_ascii_of_string wd) = true →
  words_from cur (wd +:+ rest) = words_from (cur +:+ wd) rest.
Proof.
  induction wd as [|c wd IH]; intros cur rest Hwd.
  - by rewrite string_app_nil_l, string_app_nil_r.
  - simpl in Hwd. apply andb_true_iff in Hwd as [Hc Hwd].
    apply negb_true_iff in Hc.
    rewrite string_app_cons. simpl. rewrite Hc, IH by done.
    by rewrite string_app_assoc.
Qed.

(** White space before a word is skipped. *)
Lemma words_from_skip (sp : string) : ∀ rest : string,
  forallb is_space (list_ascii_of_string sp) = true →
  words_from EmptyString (sp +:+ rest) = words_from EmptyString rest.
Proof.
  induction sp as [|c sp IH]; intros rest Hsp; [done |].
  simpl in Hsp. apply andb_true_iff in Hsp as [Hc Hsp].
  rewrite string_app_cons. simpl. rewrite Hc. by apply IH.
Qed.

(** White space after a word ends it. *)
Lemma words_from_separator (sep cur rest : string) :
  cur ≠ EmptyString → is_separator sep = true →
  words_from cur (sep +:+ rest) = cur :: words_from EmptyString rest.
Proof.
  intros Hcur Hsep. apply andb_true_iff in Hsep as [Hne Hsp].
  destruct sep as [|c sep]; [by apply bool_decide_eq_true in Hne |].
  simpl in Hsp. apply andb_true_iff in Hsp as [Hc Hsp].
  rewrite string_app_cons. simpl. rewrite Hc, decide_False by done.
  by rewrite words_from_skip.
Qed.

Lemma words_from_end (pad cur : string) :
  cur ≠ EmptyString → forallb is_space (list_ascii_of_string pad) = true →
  words_from cur pad = [cur].
Proof.
  intros Hcur Hpad. destruct pad as [|c pad].
  - simpl. by rewrite decide_False.
  - rewrite <- (string_app_nil_r (String c pad)).
    rewrite words_from_separator; [done | done |].
    apply andb_true_iff. split; [by apply bool_decide_eq_true | done].
Qed.

Lemma words_from_are_words (s : string) : ∀ cur : string,
  forallb (λ c, negb (is_space c)) (list_ascii_of_string cur) = true →
  Forall (λ wd, is_word wd = true) (words_from cur s).
Proof.
  assert (Hword : ∀ cur, cur ≠ EmptyString →
            forallb (λ c, negb (is_space c)) (list_ascii_of_string cur) = true →
            is_word cur = true).
  { intros cur Hne Hcur. apply andb_true_iff. split; [by apply bool_decide_eq_true | done]. }
  induction s as [|c s IH]; intros cur Hcur; simpl.
  - destruct (decide (cur = EmptyString)); [constructor |].
    constructor; [by apply Hword | constructor].
  - destruct (is_space c) eqn:Hc.
    + destruct (decide (cur = EmptyString)); [by apply IH |].
      constructor; [by apply Hword | by apply IH].
    + apply IH. rewrite list_ascii_of_string_app, forallb_app, Hcur. simpl.
      by rewrite Hc.
Qed.

(** X9. Every word that the routine extracts from standard input is a
    proper word: it is not empty and contains no white space. *)
Theorem read_words_are_words (w : world) :
  Forall (λ wd, is_word wd = true) (read_words w).1.
Proof. by apply words_from_are_words. Qed.

(** X10. Reading is the inverse of joining: when proper words are joined
    by a white-space separator, with any white space before the first and
    after the last, the routine reads back exactly these words, in order.
    In particular input that is all white space holds no words. *)
Theorem read_words_of_joined (ws : list string) (sep before after : string)
    (env : list (string * string)) (out : ostream) :
  Forall (λ wd, is_word wd = true) ws →
  is_separator sep = true →
  forallb is_space (list_ascii_of_string before) = true →
  forallb is_space (list_ascii_of_string after) = true →
  (read_words {| w_stdin := before +:+ String.concat sep ws +:+ after;
                 w_environ := env; w_cout := out |}).1 = ws.
Proof.
  intros Hws Hsep Hbefore Hafter. unfold read_words. simpl.
  rewrite words_from_skip by done. clear Hbefore before.
  induction Hws as [|x ws Hx Hws IH].
  - simpl. rewrite string_app_nil_l, <- (string_app_nil_r after).
    by rewrite words_from_skip.
  - apply andb_true_iff in Hx as [Hne Hx]. apply bool_decide_eq_true in Hne.
    destruct ws as [|y ws].
    + simpl. rewrite words_from_word, string_app_nil_l by done.
      by apply words_from_end.
    + change (String.concat sep (x :: y :: ws))
        with (x +:+ sep +:+ String.concat sep (y :: ws)).
      rewrite !string_app_assoc.
      rewrite words_from_word, string_app_nil_l by done.
      rewrite words_from_separator by done. by rewrite IH.
Qed.

Lemma read_words_of_joined_witness :
  (read_words {| w_stdin := "  " +:+ String.concat " " ["a"; "foo"; "a"] +:+ String nl "";
                 w_environ := []; w_cout := [] |}).1 = ["a"; "foo"; "a"].
Proof.
  apply (read_words_of_joined ["a"; "foo"; "a"] " " "  " (String nl "") [] []).
  - apply (bool_decide_unpack _). vm_compute. exact I.
  - reflexivity.
  - reflexivity.
  - reflexivity.
Defined.

(** ** The set of words *)

Lemma foldl_insert_words (ws : list string) : ∀ acc : gset string,
  foldl (λ s x, {[x]} ∪ s) acc ws = list_to_set ws ∪ acc.
Proof.
  induction ws as [|x ws IH]; intros acc; simpl.
  - by rewrite union_empty_l_L.
  - rewrite IH. by rewrite (union_comm_L {[x]} (list_to_set ws)), <- union_assoc_L.
Qed.

Lemma remove_dups_length_le (ws : list string) :
  (length (remove_dups ws) ≤ length ws)%nat.
Proof.
  induction ws as [|x ws IH]; simpl; [done |].
  case_decide; simpl; lia.
Qed.

(** X11. The set that [set_remove_dups_demo] builds holds exactly the words
    read from standard input, each of them once however often it was read,
    and the routine itself leaves the input consumed and the output
    untouched. *)
Theorem set_remove_dups_demo_distinct (w : world) :
  (∀ x : string, x ∈ Learn.set_remove_dups_demo_s1 w ↔ x ∈ (read_words w).1) ∧
  size (Learn.set_remove_dups_demo_s1 w) = length (remove_dups (read_words w).1) ∧
  (size (Learn.set_remove_dups_demo_s1 w) ≤ length (read_words w).1)%nat ∧
  w_stdin (Learn.set_remove_dups_demo w) = EmptyString ∧
  w_cout (Learn.set_remove_dups_demo w) = w_cout w.
Proof.
  unfold Learn.set_remove_dups_demo_s1, read_words. simpl.
  set (ws := words_from EmptyString (w_stdin w)).
  assert (Hset : foldl (λ (s : gset string) x, {[x]} ∪ s) ∅ ws = list_to_set ws)
    by (rewrite foldl_insert_words; apply union_empty_r_L).
  rewrite Hset.
  assert (Hsize : size (list_to_set ws : gset string) = length (remove_dups ws)).
  { rewrite <- (size_list_to_set (C:=gset string)) by apply NoDup_remove_dups.
    f_equal. apply set_eq. intros x.
    by rewrite !elem_of_list_to_set, elem_of_remove_dups. }
  split_and!; try done.
  - intros x. apply elem_of_list_to_set.
  - rewrite Hsize. apply remove_dups_length_le.
Qed.

(** ** The logger *)

Lemma string_length_app (a b : string) :
  String.length (a +:+ b) = (String.length a + String.length b)%nat.
Proof.
  induction a as [|c a IH]; [done |].
  rewrite string_app_cons. simpl. by rewrite IH.
Qed.

Lemma string_app_inj_r (a b c : string) : a +:+ c = b +:+ c → a = b.
Proof.
  revert b. induction a as [|x a IH]; intros [|y b] H.
  - done.
  - apply (f_equal String.length) in H.
    rewrite string_app_nil_l, string_app_cons in H. simpl in H.
    rewrite string_length_app in H. lia.
  - apply (f_equal String.length) in H.
    rewrite string_app_nil_l, string_app_cons in H. simpl in H.
    rewrite string_length_app in H. lia.
  - rewrite !string_app_cons in H. injection H as -> H. f_equal. by apply IH.
Qed.

(** X12. The text of a log call tells call sites and messages apart:
    written after the same output, two calls from different lines of one
    file with one message give different text, and so do two calls from
    one location with different messages. *)
Theorem log_text_distinguishes (pp : list Z → string) (w : world) (file : string)
    (line1 line2 : N) (message1 message2 : string) :
  (line1 ≠ line2 →
     render pp (w_cout (App.log message1 (std.current file line1) w))
     ≠ render pp (w_cout (App.log message1 (std.current file line2) w))) ∧
  (message1 ≠ message2 →
     render pp (w_cout (App.log message1 (std.current file line1) w))
     ≠ render pp (w_cout (App.log message2 (std.current file line1) w))).
Proof.
  split; intros Hne Heq; apply Hne; clear Hne.
  - rewrite !app_log_cout, !render_app in Heq.
    apply (inj (String.app _)) in Heq. unfold render in Heq. simpl in Heq.
    do 3 apply (inj (String.app _)) in Heq.
    apply string_app_inj_r, dec_inj in Heq. lia.
  - rewrite !app_log_cout, !render_app in Heq.
    apply (inj (String.app _)) in Heq. unfold render in Heq. simpl in Heq.
    do 5 apply (inj (String.app _)) in Heq.
    by apply string_app_inj_r in Heq.
Qed.

Lemma log_text_distinguishes_witness :
  render bracket_pp (w_cout (App.log "Logging Hello world!" (std.current "src/app.cpp" 19)
                               (fresh_world "" [])))
  ≠ render bracket_pp (w_cout (App.log "Logging Hello world!" (std.current "src/app.cpp" 30)
                                 (fresh_world "" []))) ∧
  render bracket_pp (w_cout (App.log "Logging Hello world!" (std.current "src/app.cpp" 19)
                               (fresh_world "" [])))
  ≠ render bracket_pp (w_cout (App.log "Bye" (std.current "src/app.cpp" 19)
                                 (fresh_world "" []))).
Proof.
  split.
  - apply (proj1 (log_text_distinguishes bracket_pp (fresh_world "" []) "src/app.cpp"
                    19 30 "Logging Hello world!" "Bye")). discriminate.
  - apply (proj2 (log_text_distinguishes bracket_pp (fresh_world "" []) "src/app.cpp"
                    19 30 "Logging Hello world!" "Bye")). discriminate.
Defined.

(** ** Why the erase is needed *)

Lemma surviving_full_length (pred : Z → bool) (v : list Z) :
  length (surviving pred v) = length v → Forall (λ x, pred x = false) v.
Proof.
  induction v as [|x v IH]; simpl; [constructor |].
  pose proof (surviving_length pred v).
  destruct (pred x) eqn:Hx; simpl; intros Hlen; [lia |].
  constructor; [done | apply IH; lia].
Qed.

(** X13. [std::remove_if] alone never shrinks the vector: what it leaves
    is the filtered sequence only when there was nothing to remove, and in
    every other case the vector still needs the erase. *)
Theorem remove_if_needs_erase (v : list Z) (pred : Z → bool) :
  ∃ (v' : list Z) (new_end : nat),
    std.remove_if v 0 (length v) pred = Some (v', new_end) ∧
    (v' = surviving pred v ↔ Forall (λ x, pred x = false) v) ∧
    (new_end = length v ↔ Forall (λ x, pred x = false) v).
Proof.
  eexists _, _. split; [apply remove_if_spec |].
  pose proof (surviving_length pred v) as Hle.
  split; split.
  - intros Heq. apply surviving_full_length.
    apply (f_equal length) in Heq. rewrite length_app, length_drop in Heq. lia.
  - intros Hall. by rewrite surviving_keeps, drop_all, app_nil_r.
  - apply surviving_full_length.
  - intros Hall. by rewrite surviving_keeps.
Qed.

(** ** The person formatter *)

(** X14. The text of a person tells records apart: written after the same
    output, two records of one name and different ages give different
    text, and so do two records of one age and different names. *)
Theorem person_text_distinguishes (pp : list Z → string) (w : world)
    (name1 name2 : string) (age1 age2 : Z) :
  (age1 ≠ age2 →
     render pp (w_cout (put_person {| name := name1; age := age1 |} w))
     ≠ render pp (w_cout (put_person {| name := name1; age := age2 |} w))) ∧
  (name1 ≠ name2 →
     render pp (w_cout (put_person {| name := name1; age := age1 |} w))
     ≠ render pp (w_cout (put_person {| name := name2; age := age1 |} w))).
Proof.
  split; intros Hne Heq; apply Hne; clear Hne.
  - rewrite !put_person_cout, !render_app in Heq.
    apply (inj (String.app _)) in Heq. unfold render in Heq. simpl in Heq.
    do 3 apply (inj (String.app _)) in Heq.
    by apply string_app_inj_r, dec_inj in Heq.
  - rewrite !put_person_cout, !render_app in Heq.
    apply (inj (String.app _)) in Heq. unfold render in Heq. simpl in Heq.
    apply (inj (String.app _)) in Heq.
    by apply string_app_inj_r in Heq.
Qed.

Lemma person_text_distinguishes_witness :
  render bracket_pp (w_cout (put_person {| name := "bingo"; age := 23 |} (fresh_world "" [])))
  ≠ render bracket_pp (w_cout (put_person {| name := "bingo"; age := 24 |} (fresh_world "" []))) ∧
  render bracket_pp (w_cout (put_person {| name := "bingo"; age := 23 |} (fresh_world "" [])))
  ≠ render bracket_pp (w_cout (put_person {| name := "bongo"; age := 23 |} (fresh_world "" []))).
Proof.
  split.
  - apply (proj1 (person_text_distinguishes bracket_pp (fresh_world "" [])
                    "bingo" "bongo" 23 24)). discriminate.
  - apply (proj2 (person_text_distinguishes bracket_pp (fresh_world "" [])
                    "bingo" "bongo" 23 24)). discriminate.
Defined.
